(** * movie-watchlist: the Flask/SQLAlchemy back end of [api/app.py]

    A shallow embedding of the [movies] table, of the statements the
    module runs against it, of the start-up block and of the four request
    handlers, followed by the properties of the handlers.

    The store is passed explicitly.  A computation over a connection is a
    function [store -> result A * store]: it returns a value or raises an
    exception of SQLAlchemy or of the driver, which Flask turns into a
    500 response.

    The statements have the meaning PostgreSQL gives them (the default
    [DATABASE_URL]): the declared constraints of the table are enforced
    by [insert], the primary key is drawn from a sequence, [rowcount] is
    the number of rows a condition matches, an update writes a new
    version of the rows it matches, which a select returns last, and a
    transaction undoes changes of rows but not the values drawn from a
    sequence.  The driver refuses a text that holds the NUL character
    before the statement is sent.  Text is a [string], one [ascii] per
    character. *)

From stdpp Require Import base numbers list strings.

Local Open Scope Z_scope.
Local Open Scope string_scope.
Local Open Scope list_scope.

(** ** JSON values, as produced by [jsonify] *)

#[warnings="-register-all"]
Inductive json : Type :=
  | JNull
  | JBool (b : bool)
  | JNum (n : Z)
  | JStr (s : string)
  | JArr (items : list json)
  | JObj (members : list (string * json)).

(** ** The [movies] table (app.py, lines 13-20) *)

Module movies.

(** One row.  A nullable column holds [None] for SQL NULL.  [title] is
    declared [nullable=False]; the constraint is enforced by [insert]
    below, not by the type, so that a row with a null title can be
    talked about. *)
Record row : Type := Row {
  id : Z;
  title : option string;
  genre : option string;
  status : option bool;
  image_url : option string
}.

(** [String(200)], [String(100)], [String(500)]. *)
Definition title_len : nat := 200.
Definition genre_len : nat := 100.
Definition image_url_len : nat := 500.

Definition set_status (b : bool) (r : row) : row :=
  {| id := id r; title := title r; genre := genre r;
     status := Some b; image_url := image_url r |}.

End movies.

#[global] Instance row_eq_dec : EqDecision movies.row.
Proof. solve_decision. Defined.

(** The database: the rows of [movies] in storage order, and the next
    value of the sequence behind the autoincrement primary key. *)
Record store : Type := Store {
  table : list movies.row;
  id_seq : Z
}.

(** The table as [metadata.create_all] creates it in an empty database. *)
Definition fresh_store : store := {| table := []; id_seq := 1 |}.

Definition ids (st : store) : list Z := movies.id <$> table st.

(** ** Computations over a connection *)

Inductive exn : Type :=
  | IntegrityError   (* a NOT NULL or primary-key constraint is violated *)
  | DataError        (* a value does not fit its column *)
  | ValueError.      (* the driver cannot pass a parameter on *)

Inductive result (A : Type) : Type :=
  | Return (a : A)
  | Raise (e : exn).
Arguments Return {A} a.
Arguments Raise {A} e.

Definition Conn (A : Type) : Type := store -> result A * store.

Definition ret {A} (a : A) : Conn A := fun st => (Return a, st).

Definition raise {A} (e : exn) : Conn A := fun st => (Raise e, st).

Definition bind {A B} (k : A -> Conn B) (m : Conn A) : Conn B :=
  fun st =>
    match m st with
    | (Return a, st') => k a st'
    | (Raise e, st') => (Raise e, st')
    end.

(** [x ← m; k] runs [m], then [k] on its value; an exception raised by
    [m] ends the computation. *)
#[global] Instance Conn_ret : MRet Conn := @ret.
#[global] Instance Conn_bind : MBind Conn := @bind.

(** What a transaction undoes: the rows.  A sequence is not
    transactional, a value drawn from it stays drawn. *)
Definition rollback (before after : store) : store :=
  {| table := table before; id_seq := id_seq after |}.

(** [with engine.begin() as conn:] commits when the block returns and
    rolls back when it raises. *)
Definition begin {A} (block : Conn A) : Conn A :=
  fun st =>
    match block st with
    | (Return a, st') => (Return a, st')
    | (Raise e, st') => (Raise e, rollback st st')
    end.

(** [with engine.connect() as conn:] never commits: closing the
    connection rolls back whatever the block did. *)
Definition connect {A} (block : Conn A) : Conn A :=
  fun st => let (r, st') := block st in (r, rollback st st').

(** ** Statements *)

(** [movies.select()]: every row, in storage order. *)
Definition select : Conn (list movies.row) :=
  fun st => (Return (table st), st).

(** [result.first()]. *)
Definition first (rows : list movies.row) : option movies.row := head rows.

Fixpoint all_spaces (s : string) : bool :=
  match s with
  | EmptyString => true
  | String c s' => if Ascii.eqb c Ascii.Space then all_spaces s' else false
  end.

Fixpoint has_nul (s : string) : bool :=
  match s with
  | EmptyString => false
  | String c s' => Ascii.eqb c Ascii.zero || has_nul s'
  end.

(** Binding a text parameter: the driver refuses a string that holds the
    NUL character, before anything is sent to the database. *)
Definition adapt (v : option string) : Conn (option string) :=
  match v with
  | None => ret None
  | Some s => if has_nul s then raise ValueError else ret (Some s)
  end.

(** Storing a value in a [VARCHAR(n)] column: a longer string is an
    error, unless all it has beyond [n] characters is spaces, which are
    cut off. *)
Definition varchar (n : nat) (v : option string) : Conn (option string) :=
  match v with
  | None => ret None
  | Some s =>
      if decide (String.length s <= n)%nat then ret (Some s)
      else if all_spaces (String.substring n (String.length s - n) s)
           then ret (Some (String.substring 0 n s))
           else raise DataError
  end.

Definition nextval : Conn Z :=
  fun st => (Return (id_seq st),
             {| table := table st; id_seq := id_seq st + 1 |}).

Definition append_row (r : movies.row) : Conn unit :=
  fun st => (Return tt, {| table := table st ++ [r]; id_seq := id_seq st |}).

Definition check (ok : bool) (e : exn) : Conn unit :=
  if ok then ret tt else raise e.

(** The values of an insert, as both call sites give them: the three
    text columns and an explicit [status]. *)
Record values : Type := Values {
  v_title : option string;
  v_genre : option string;
  v_status : bool;
  v_image_url : option string
}.

(** [conn.execute(movies.insert().values(...))], returning
    [inserted_primary_key[0]].  The parameters are bound, then the
    statement runs: the values are coerced to their columns, the id is
    drawn from the sequence, then the constraints of the table are
    checked: [nullable=False] on [title], [primary_key=True] on [id]. *)
Definition insert (v : values) : Conn Z :=
  t ← adapt (v_title v);
  g ← adapt (v_genre v);
  u ← adapt (v_image_url v);
  t ← varchar movies.title_len t;
  g ← varchar movies.genre_len g;
  u ← varchar movies.image_url_len u;
  i ← nextval;
  check (bool_decide (is_Some t)) IntegrityError;;
  rows ← select;
  check (bool_decide (i ∉ movies.id <$> rows)) IntegrityError;;
  append_row {| movies.id := i; movies.title := t; movies.genre := g;
                movies.status := Some (v_status v);
                movies.image_url := u |};;
  ret i.

(** [conn.execute(movies.insert(), rows)] with a list of rows. *)
Fixpoint insert_many (vs : list values) : Conn unit :=
  match vs with
  | [] => ret tt
  | v :: vs' => insert v;; insert_many vs'
  end.

(** [movies.update().where(movies.c.id == movie_id).values(status=b)],
    returning [rowcount], the number of rows the condition matched.  The
    update writes a new version of each row it matches; a select returns
    these after the rows that were not touched. *)
Definition update_status (movie_id : Z) (b : bool) : Conn nat :=
  fun st =>
    (Return (length (filter (fun r => movies.id r = movie_id) (table st))),
     {| table := filter (fun r => movies.id r <> movie_id) (table st)
                 ++ (movies.set_status b
                       <$> filter (fun r => movies.id r = movie_id) (table st));
        id_seq := id_seq st |}).

(** [movies.delete().where(movies.c.id == movie_id)], returning
    [rowcount]. *)
Definition delete (movie_id : Z) : Conn nat :=
  fun st =>
    (Return (length (filter (fun r => movies.id r = movie_id) (table st))),
     {| table := filter (fun r => movies.id r <> movie_id) (table st);
        id_seq := id_seq st |}).

(** ** Start-up (app.py, lines 22-33) *)

Definition nolan_movies : list values :=
  [ {| v_title := Some "Inception"; v_genre := Some "Sci-Fi";
       v_status := false;
       v_image_url :=
         Some "https://images.unsplash.com/photo-1524985069026-dd778a71c7b4" |};
    {| v_title := Some "Interstellar"; v_genre := Some "Sci-Fi";
       v_status := false;
       v_image_url :=
         Some "https://images.unsplash.com/photo-1462331940025-496dfbfc7564" |};
    {| v_title := Some "The Dark Knight"; v_genre := Some "Action";
       v_status := false;
       v_image_url :=
         Some "https://images.unsplash.com/photo-1517602302552-471fe67acf66" |};
    {| v_title := Some "Tenet"; v_genre := Some "Sci-Fi/Action";
       v_status := false;
       v_image_url :=
         Some "https://images.unsplash.com/photo-1522120692562-5d7a83e9f50a" |} ].

(** [metadata.create_all(conn)]: the table exists in every [store], and
    an existing table is left as it is. *)
Definition create_all : Conn unit := ret tt.

Definition startup : Conn unit :=
  begin (
    create_all;;
    result ← select;
    match first result with
    | None => insert_many nolan_movies
    | Some _ => ret tt
    end).

(** ** Requests and responses *)

(** A response: the JSON body and the status code. *)
Definition response : Type := json * Z.

Definition jsonify (j : json) : response := (j, 200).

(** The decoded body of a POST.  [data.get(k)] is [None] both when [k]
    is absent and when it is null; the text fields hold strings.  A
    [status] member may hold any JSON value. *)
Record body : Type := Body {
  b_title : option string;
  b_genre : option string;
  b_image_url : option string;
  b_status : option json
}.

(** [{}] *)
Definition empty_body : body :=
  {| b_title := None; b_genre := None; b_image_url := None;
     b_status := None |}.

Definition json_text (v : option string) : json :=
  match v with Some s => JStr s | None => JNull end.

Definition json_bool (v : option bool) : json :=
  match v with Some b => JBool b | None => JNull end.

(** [dict(r)] for a row mapping [r]. *)
Definition dict (r : movies.row) : json :=
  JObj [ ("id", JNum (movies.id r));
         ("title", json_text (movies.title r));
         ("genre", json_text (movies.genre r));
         ("status", json_bool (movies.status r));
         ("image_url", json_text (movies.image_url r)) ].

(** ** The handlers (app.py, lines 35-67) *)

Definition list_movies : Conn response :=
  connect (
    rows ← select;
    ret (jsonify (JArr (dict <$> rows)))).

Definition add_movie (payload : option body) : Conn response :=
  let data := default empty_body payload in
  begin (
    res ← insert {| v_title := b_title data;
                    v_genre := b_genre data;
                    v_status := false;
                    v_image_url := b_image_url data |};
    ret (JObj [("id", JNum res)], 201)).

Definition mark_watched (movie_id : Z) : Conn response :=
  begin (
    res ← update_status movie_id true;
    if decide (res ≠ 0%nat)
    then ret (jsonify (JObj [("status", JStr "updated")]))
    else ret (JObj [("error", JStr "not found")], 404)).

Definition delete_movie (movie_id : Z) : Conn response :=
  begin (
    res ← delete movie_id;
    if decide (res ≠ 0%nat)
    then ret (jsonify (JObj [("deleted", JNum movie_id)]))
    else ret (JObj [("error", JStr "not found")], 404)).

(** What the client sees: an exception that leaves a handler becomes
    Flask's 500 response. *)
Definition status_code (r : result response) : Z :=
  match r with
  | Return (_, code) => code
  | Raise _ => 500
  end.

(** ** Runs of the service *)

Inductive request : Type :=
  | GET_movies
  | POST_movies (payload : option body)
  | PUT_movie (movie_id : Z)
  | DELETE_movie (movie_id : Z).

Definition handle (rq : request) : Conn response :=
  match rq with
  | GET_movies => list_movies
  | POST_movies payload => add_movie payload
  | PUT_movie movie_id => mark_watched movie_id
  | DELETE_movie movie_id => delete_movie movie_id
  end.

(** One thing that happens to the store: the process (re)starts, or a
    request is served. *)
Inductive event : Type :=
  | Start
  | Serve (rq : request).

Definition after (ev : event) (st : store) : store :=
  match ev with
  | Start => (startup st).2
  | Serve rq => (handle rq st).2
  end.

(** The stores the service can be in: the process is started on an empty
    database, then any number of requests and restarts follow. *)
Inductive reachable : store -> Prop :=
  | reachable_start : reachable (after Start fresh_store)
  | reachable_after ev st : reachable st -> reachable (after ev st).

(** [later st st']: [st'] comes after [st] in a run. *)
Inductive later (st : store) : store -> Prop :=
  | later_refl : later st st
  | later_step ev st' : later st st' -> later st (after ev st').

(** ** Notions the properties are stated with *)

(** The row an insert stores, once the values are coerced. *)
Definition new_row (i : Z) (t g u : option string) (b : bool) : movies.row :=
  {| movies.id := i; movies.title := t; movies.genre := g;
     movies.status := Some b; movies.image_url := u |}.

(** What the constraints of the table and the sequence maintain: the
    primary key is unique, every id was drawn from the sequence, no
    title and no status is null. *)
Record consistent (st : store) : Prop := Consistent {
  pk_unique : NoDup (ids st);
  ids_issued : forall i, i ∈ ids st -> i < id_seq st;
  title_not_null : forall r, r ∈ table st -> is_Some (movies.title r);
  status_not_null : forall r, r ∈ table st -> is_Some (movies.status r)
}.

(** A row that was not there in [st]: its id comes from the sequence of
    [st] or later, and it is unwatched. *)
Definition created_since (st : store) (r : movies.row) : Prop :=
  id_seq st <= movies.id r
  /\ is_Some (movies.title r)
  /\ movies.status r = Some false.

(** Where a row of the store after an event comes from: it was there
    unchanged, or it was there and has been marked watched, or it is new. *)
Definition row_origin (st : store) (r' : movies.row) : Prop :=
  r' ∈ table st
  \/ (exists r, r ∈ table st /\ r' = movies.set_status true r)
  \/ created_since st r'.

(** The values [add_movie] inserts for a payload. *)
Definition add_values (payload : option body) : values :=
  let data := default empty_body payload in
  {| v_title := b_title data; v_genre := b_genre data;
     v_status := false; v_image_url := b_image_url data |}.

(** A text value that is null or free of the NUL character, that is,
    one that [adapt] passes on. *)
Definition nul_free (o : option string) : bool :=
  match o with
  | None => true
  | Some s => negb (has_nul s)
  end.

(** What the update of [mark_watched] does to one row. *)
Definition mark (movie_id : Z) (r : movies.row) : movies.row :=
  if decide (movies.id r = movie_id) then movies.set_status true r else r.

(** The table the update of [mark_watched] leaves: the rows of other ids,
    then the rows of the id, watched. *)
Definition marked (movie_id : Z) (rows : list movies.row) : list movies.row :=
  filter (fun r => movies.id r <> movie_id) rows
  ++ (movies.set_status true
        <$> filter (fun r => movies.id r = movie_id) rows).

(** Whether a value fits a [VARCHAR(n)] column, that is, whether
    [varchar n] accepts it. *)
Definition fits (n : nat) (o : option string) : bool :=
  match o with
  | None => true
  | Some s =>
      bool_decide (String.length s <= n)%nat
      || all_spaces (String.substring n (String.length s - n) s)
  end.

(** A payload with its [status] member set to [j]. *)
Definition with_status (j : option json) (data : body) : body :=
  {| b_title := b_title data; b_genre := b_genre data;
     b_image_url := b_image_url data; b_status := j |}.

(** The store after the first start of the process on an empty database. *)
Definition seeded : store := after Start fresh_store.

(** The payload [{"title": "Dunkirk", "genre": "War", "status": true}]. *)
Definition dunkirk : body :=
  {| b_title := Some "Dunkirk"; b_genre := Some "War";
     b_image_url := None; b_status := Some (JBool true) |}.

(** Serving requests one after the other, collecting the responses. *)
Fixpoint serve_all (rqs : list request) (st : store)
    : list (result response) * store :=
  match rqs with
  | [] => ([], st)
  | rq :: rqs' =>
      let (resp, st') := handle rq st in
      let (resps, st'') := serve_all rqs' st' in
      (resp :: resps, st'')
  end.

(** The response bodies of the API. *)
Definition created (i : Z) : response := (JObj [("id", JNum i)], 201).
Definition updated : response := (JObj [("status", JStr "updated")], 200).
Definition deleted (i : Z) : response := (JObj [("deleted", JNum i)], 200).
Definition not_found : response := (JObj [("error", JStr "not found")], 404).

(** A text value that is null or has at most [n] characters. *)
Definition text_within (n : nat) (o : option string) : Prop :=
  match o with
  | None => True
  | Some s => (String.length s <= n)%nat
  end.


(** A row whose texts respect the lengths the columns declare. *)
Definition within_limits (r : movies.row) : Prop :=
  text_within movies.title_len (movies.title r)
  /\ text_within movies.genre_len (movies.genre r)
  /\ text_within movies.image_url_len (movies.image_url r).

(** A string of [n] times the letter x. *)
Definition xs (n : nat) : string :=
  String.string_of_list_ascii (replicate n (Ascii.ascii_of_nat 120)).

(** * Properties *)

(** Membership in a list that computes to a literal. *)
Ltac find_row :=
  vm_compute;
  repeat first [apply list_elem_of_here | apply list_elem_of_further].

(** ** The statements *)

Section Statements.

Implicit Types (st : store) (v : values) (r : movies.row).

Lemma varchar_fits n (s : string) st :
  (String.length s <= n)%nat -> varchar n (Some s) st = (Return (Some s), st).
Proof. intros Hn. unfold varchar. by rewrite decide_True. Qed.

Lemma varchar_Return n (o o' : option string) st st' :
  varchar n o st = (Return o', st') -> st' = st /\ (is_Some o' <-> is_Some o).
Proof.
  unfold varchar. destruct o as [s|].
  - case_decide; [|destruct (all_spaces _)]; intros [= <- <-];
      (split; [done|]); split; eauto.
  - intros [= <- <-]. done.
Qed.

Lemma varchar_Raise n (o : option string) e st st' :
  varchar n o st = (Raise e, st') -> st' = st /\ e = DataError.
Proof.
  unfold varchar. destruct o as [s|]; [|done].
  case_decide; [done|]. destruct (all_spaces _); [done|].
  by intros [= <- <-].
Qed.

Lemma adapt_run (o : option string) st :
  adapt o st = (if nul_free o then Return o else Raise ValueError, st).
Proof. destruct o as [s|]; [|done]. cbn. by destruct (has_nul s). Qed.

(** An insert either stores one row under the next value of the
    sequence, which no row has, with a title that is not null, or it
    raises and stores nothing. *)
Lemma insert_inv v st res st' :
  insert v st = (res, st') ->
  (exists t g u,
      res = Return (id_seq st)
      /\ varchar movies.title_len (v_title v) st = (Return (Some t), st)
      /\ varchar movies.genre_len (v_genre v) st = (Return g, st)
      /\ varchar movies.image_url_len (v_image_url v) st = (Return u, st)
      /\ (id_seq st ∉ ids st)
      /\ st' = {| table := table st
                           ++ [new_row (id_seq st) (Some t) g u (v_status v)];
                  id_seq := id_seq st + 1 |})
  \/ (exists e, res = Raise e /\ table st' = table st
                /\ id_seq st <= id_seq st' <= id_seq st + 1).
Proof.
  unfold insert, mbind, Conn_bind, bind. rewrite !adapt_run.
  destruct (nul_free (v_title v)).
  2:{ intros [= <- <-]. right. eexists. split; [done|]. split; [done|lia]. }
  destruct (nul_free (v_genre v)).
  2:{ intros [= <- <-]. right. eexists. split; [done|]. split; [done|lia]. }
  destruct (nul_free (v_image_url v)).
  2:{ intros [= <- <-]. right. eexists. split; [done|]. split; [done|lia]. }
  destruct (varchar _ (v_title v) st) as [[t|e] s1] eqn:Ht.
  2:{ apply varchar_Raise in Ht as [-> ->]. intros [= <- <-].
      right. eexists. split; [done|]. split; [done|lia]. }
  pose proof (varchar_Return _ _ _ _ _ Ht) as [-> _].
  destruct (varchar _ (v_genre v) st) as [[g|e] s1] eqn:Hg.
  2:{ apply varchar_Raise in Hg as [-> ->]. intros [= <- <-].
      right. eexists. split; [done|]. split; [done|lia]. }
  pose proof (varchar_Return _ _ _ _ _ Hg) as [-> _].
  destruct (varchar _ (v_image_url v) st) as [[u|e] s1] eqn:Hu.
  2:{ apply varchar_Raise in Hu as [-> ->]. intros [= <- <-].
      right. eexists. split; [done|]. split; [done|lia]. }
  pose proof (varchar_Return _ _ _ _ _ Hu) as [-> _].
  cbn [nextval]. destruct t as [t|]; cbn.
  2:{ intros [= <- <-]. right. eexists. split; [done|].
      split; [done|cbn; lia]. }
  case_bool_decide as Hfresh; cbn.
  - intros [= <- <-]. left. exists t, g, u. done.
  - intros [= <- <-]. right. eexists. split; [done|].
    split; [done|cbn; lia].
Qed.

(** When the values fit and the title is not null, an insert into a
    table that does not hold the next id of the sequence succeeds. *)
Lemma insert_Return v st (t : string) (g u : option string) :
  nul_free (v_title v) = true ->
  nul_free (v_genre v) = true ->
  nul_free (v_image_url v) = true ->
  varchar movies.title_len (v_title v) st = (Return (Some t), st) ->
  varchar movies.genre_len (v_genre v) st = (Return g, st) ->
  varchar movies.image_url_len (v_image_url v) st = (Return u, st) ->
  id_seq st ∉ ids st ->
  insert v st
  = (Return (id_seq st),
     {| table := table st ++ [new_row (id_seq st) (Some t) g u (v_status v)];
        id_seq := id_seq st + 1 |}).
Proof.
  intros Nt Ng Nu Ht Hg Hu Hfresh.
  unfold insert, mbind, Conn_bind, bind.
  rewrite !adapt_run, Nt, Ng, Nu, Ht, Hg, Hu. cbn.
  by rewrite bool_decide_true.
Qed.

Lemma rowcount_pos movie_id st :
  movie_id ∈ ids st ->
  length (filter (fun r => movies.id r = movie_id) (table st)) <> 0%nat.
Proof.
  unfold ids. intros (r & -> & Hr)%list_elem_of_fmap Hlen.
  apply length_zero_iff_nil in Hlen.
  assert (r ∈ filter (fun r' => movies.id r' = movies.id r) (table st)) as Hin
    by by apply list_elem_of_filter.
  rewrite Hlen in Hin. by apply not_elem_of_nil in Hin.
Qed.

Lemma rowcount_zero movie_id st :
  movie_id ∉ ids st ->
  length (filter (fun r => movies.id r = movie_id) (table st)) = 0%nat.
Proof.
  intros Hnot. apply length_zero_iff_nil.
  destruct (filter _ _) as [|r l] eqn:Hf; [done|]. exfalso.
  assert (r ∈ filter (fun r' => movies.id r' = movie_id) (table st)) as Hin
    by (rewrite Hf; left).
  apply list_elem_of_filter in Hin as [<- Hin]. apply Hnot.
  by apply list_elem_of_fmap_2.
Qed.

End Statements.

(** ** The invariant of the store *)

Section Invariant.

Implicit Types (st : store) (v : values) (r : movies.row).

Lemma consistent_fresh : consistent fresh_store.
Proof.
  split; cbn.
  - constructor.
  - intros i Hi. by apply not_elem_of_nil in Hi.
  - intros r Hr. by apply not_elem_of_nil in Hr.
  - intros r Hr. by apply not_elem_of_nil in Hr.
Qed.

Lemma consistent_rollback st st' :
  id_seq st <= id_seq st' -> consistent st -> consistent (rollback st st').
Proof.
  intros Hseq [Hpk Hid Ht Hs]. split; cbn; try done.
  intros i Hi. specialize (Hid i Hi). unfold ids in *. cbn. lia.
Qed.

(** What one insert does to the store, whether it succeeds or not. *)
Lemma insert_grows v st :
  id_seq st <= id_seq (insert v st).2
  /\ (forall r', r' ∈ table (insert v st).2 ->
        r' ∈ table st
        \/ (id_seq st <= movies.id r' /\ is_Some (movies.title r')
            /\ movies.status r' = Some (v_status v)))
  /\ (consistent st -> consistent (insert v st).2).
Proof.
  destruct (insert v st) as [res st'] eqn:Hins. cbn.
  apply insert_inv in Hins
    as [(t & g & u & _ & _ & _ & _ & Hfresh & ->)|(e & _ & Htab & Hseq)].
  - cbn. split; [lia|]. split.
    + intros r' [Hr'|Hr']%elem_of_app; [by left|right].
      apply list_elem_of_singleton in Hr' as ->. cbn. split; [lia|]. eauto.
    + intros [Hpk Hid Ht Hs]. split; unfold ids in *; cbn.
      * rewrite fmap_app. apply NoDup_app. split; [done|]. split.
        -- intros i Hi Hi'. cbn in Hi'.
           apply list_elem_of_singleton in Hi'. by subst.
        -- apply NoDup_singleton.
      * intros i. rewrite fmap_app. intros [Hi|Hi]%elem_of_app; cbn.
        -- specialize (Hid i Hi). lia.
        -- cbn in Hi. apply list_elem_of_singleton in Hi. lia.
      * intros r [Hr|Hr]%elem_of_app; [by eauto|].
        apply list_elem_of_singleton in Hr as ->. cbn. eauto.
      * intros r [Hr|Hr]%elem_of_app; [by eauto|].
        apply list_elem_of_singleton in Hr as ->. cbn. eauto.
  - split; [lia|]. split.
    + intros r'. rewrite Htab. by left.
    + intros [Hpk Hid Ht Hs]. split; unfold ids in *; rewrite ?Htab; try done.
      intros i Hi. specialize (Hid i Hi). lia.
Qed.

Lemma insert_many_cons v vs st :
  insert_many (v :: vs) st
  = match insert v st with
    | (Return _, st') => insert_many vs st'
    | (Raise e, st') => (Raise e, st')
    end.
Proof. reflexivity. Qed.

Lemma insert_many_grows vs st :
  Forall (fun v => v_status v = false) vs ->
  id_seq st <= id_seq (insert_many vs st).2
  /\ (forall r', r' ∈ table (insert_many vs st).2 ->
        r' ∈ table st \/ created_since st r')
  /\ (consistent st -> consistent (insert_many vs st).2).
Proof.
  intros Hvs. revert st.
  induction Hvs as [|v vs Hv _ IH]; intros st; cbn.
  { split; [lia|]. split; [by left|done]. }
  destruct (insert_grows v st) as (Hseq & Hrows & Hcons).
  unfold mbind, Conn_bind, bind.
  destruct (insert v st) as [[i|e] st1]; cbn in *; [|done || (split; [done|]; split; [|done])].
  - destruct (IH st1) as (Hseq' & Hrows' & Hcons').
    split; [lia|]. split; [|by auto].
    intros r' [Hr'|(Hge & Htitle & Hst)]%Hrows'.
    + apply Hrows in Hr' as [Hr'|(Hge & Htitle & Hst)]; [by left|right].
      split; [done|]. split; [done|]. by rewrite Hst, Hv.
    + right. split; [lia|done].
  - intros r' [Hr'|(Hge & Htitle & Hst)]%Hrows; [by left|right].
    split; [done|]. split; [done|]. by rewrite Hst, Hv.
Qed.

End Invariant.

(** ** The handlers, unfolded *)

Section Handlers.

Implicit Types (st : store) (r : movies.row) (movie_id : Z).

Lemma list_movies_run st :
  list_movies st = (Return (jsonify (JArr (dict <$> table st))), st).
Proof. by destruct st. Qed.

Lemma add_movie_run payload st :
  add_movie payload st
  = match insert (add_values payload) st with
    | (Return i, st') => (Return (created i), st')
    | (Raise e, st') => (Raise e, rollback st st')
    end.
Proof.
  unfold add_movie, begin, mbind, Conn_bind, bind. fold (add_values payload).
  by destruct (insert _ st) as [[i|e] st'].
Qed.

Lemma mark_watched_run movie_id st :
  mark_watched movie_id st
  = (Return (if decide (movie_id ∈ ids st) then updated else not_found),
     {| table := marked movie_id (table st); id_seq := id_seq st |}).
Proof.
  unfold mark_watched, begin, mbind, Conn_bind, bind, update_status, marked.
  cbn.
  destruct (decide (movie_id ∈ ids st)) as [Hin|Hnot].
  - by rewrite decide_True by by apply rowcount_pos.
  - rewrite decide_False; [done|].
    intros Hne. apply Hne. by apply rowcount_zero.
Qed.

Lemma delete_movie_run movie_id st :
  delete_movie movie_id st
  = (Return (if decide (movie_id ∈ ids st)
             then deleted movie_id else not_found),
     {| table := filter (fun r => movies.id r <> movie_id) (table st);
        id_seq := id_seq st |}).
Proof.
  unfold delete_movie, begin, mbind, Conn_bind, bind, delete. cbn.
  destruct (decide (movie_id ∈ ids st)) as [Hin|Hnot].
  - by rewrite decide_True by by apply rowcount_pos.
  - rewrite decide_False; [done|].
    intros Hne. apply Hne. by apply rowcount_zero.
Qed.

Lemma startup_run st :
  startup st
  = match table st with
    | [] => match insert_many nolan_movies st with
            | (Return u, st') => (Return u, st')
            | (Raise e, st') => (Raise e, rollback st st')
            end
    | _ :: _ => (Return tt, st)
    end.
Proof.
  unfold startup, begin, create_all, select, first, mbind, Conn_bind, bind.
  cbn. destruct (table st) as [|r rows]; [|done].
  by destruct (insert_many nolan_movies st) as [[u|e] st'].
Qed.

Lemma mark_ids movie_id (rows : list movies.row) :
  movies.id <$> (mark movie_id <$> rows) = movies.id <$> rows.
Proof.
  induction rows as [|r rows IH]; [done|]. cbn. rewrite IH. f_equal.
  unfold mark. by case_decide.
Qed.

Lemma hits_unmatched movie_id (rows : list movies.row) :
  movie_id ∉ movies.id <$> rows ->
  filter (fun r => movies.id r = movie_id) rows = [].
Proof.
  induction rows as [|r rows IH]; [done|]. rewrite fmap_cons.
  intros Hnot. apply not_elem_of_cons in Hnot as [Hne Hnot].
  rewrite filter_cons_False by (intros Heq; by apply Hne). auto.
Qed.

(** Up to the order of the rows, the update sets the status of the rows
    of the id and leaves the others. *)
Lemma marked_perm movie_id (rows : list movies.row) :
  marked movie_id rows ≡ₚ mark movie_id <$> rows.
Proof.
  unfold marked. induction rows as [|r rows IH]; [done|].
  rewrite fmap_cons. unfold mark at 1. case_decide as Hid.
  - rewrite filter_cons_False by (intros Hne; by apply Hne).
    rewrite filter_cons_True by done. rewrite fmap_cons.
    rewrite <- Permutation_middle. by constructor.
  - rewrite filter_cons_True by done. rewrite filter_cons_False by done.
    cbn. by constructor.
Qed.

Lemma elem_of_marked movie_id (rows : list movies.row) r' :
  r' ∈ marked movie_id rows <-> exists r, r' = mark movie_id r /\ r ∈ rows.
Proof. rewrite marked_perm. apply list_elem_of_fmap. Qed.

Lemma marked_ids movie_id (rows : list movies.row) :
  movies.id <$> marked movie_id rows ≡ₚ movies.id <$> rows.
Proof. by rewrite marked_perm, mark_ids. Qed.

Lemma filter_unmatched movie_id (rows : list movies.row) :
  movie_id ∉ movies.id <$> rows ->
  filter (fun r => movies.id r <> movie_id) rows = rows.
Proof.
  induction rows as [|r rows IH]; [done|]. rewrite fmap_cons.
  intros Hnot. apply not_elem_of_cons in Hnot as [Hne Hnot].
  rewrite filter_cons_True by done. f_equal. auto.
Qed.

Lemma filter_ids movie_id (rows : list movies.row) :
  movie_id ∉ movies.id <$> filter (fun r => movies.id r <> movie_id) rows.
Proof.
  intros (r & -> & Hr)%list_elem_of_fmap.
  by apply list_elem_of_filter in Hr as [Hne _].
Qed.

Lemma marked_unmatched movie_id (rows : list movies.row) :
  movie_id ∉ movies.id <$> rows -> marked movie_id rows = rows.
Proof.
  intros Hnot. unfold marked.
  by rewrite filter_unmatched, hits_unmatched, app_nil_r.
Qed.

Lemma hits_watched movie_id b (rows : list movies.row) :
  let hits := movies.set_status b
                <$> filter (fun r => movies.id r = movie_id) rows in
  filter (fun r => movies.id r = movie_id) hits = hits
  /\ filter (fun r => movies.id r <> movie_id) hits = [].
Proof.
  cbn. induction rows as [|r rows [IH1 IH2]]; [done|].
  destruct (decide (movies.id r = movie_id)) as [Hid|Hid].
  - rewrite filter_cons_True by done. rewrite fmap_cons.
    rewrite filter_cons_True by done.
    rewrite filter_cons_False by (cbn; intros Hne; by apply Hne).
    by rewrite IH1.
  - by rewrite filter_cons_False by done.
Qed.


End Handlers.

(** ** Runs *)

Section Runs.

Implicit Types (st : store) (r : movies.row) (ev : event).

Lemma nolan_movies_unwatched :
  Forall (fun v => v_status v = false) nolan_movies.
Proof. repeat constructor. Qed.

(** What one event does to the store: the sequence does not go back,
    every row has an origin, and the invariant is kept. *)
Lemma after_grows ev st :
  id_seq st <= id_seq (after ev st)
  /\ (forall r', r' ∈ table (after ev st) -> row_origin st r')
  /\ (consistent st -> consistent (after ev st)).
Proof.
  destruct ev as [|[|payload|movie_id|movie_id]]; cbn [after handle].
  - rewrite startup_run. destruct (table st) as [|r0 rows] eqn:Htab.
    2:{ cbn. split; [lia|]. split; [|done].
        intros r' Hr'. by left. }
    destruct (insert_many_grows nolan_movies st nolan_movies_unwatched)
      as (Hseq & Hrows & Hcons).
    destruct (insert_many nolan_movies st) as [[u|e] st']; cbn in *.
    + split; [done|]. split; [|done].
      intros r' [Hr'|Hr']%Hrows; [by left|by right; right].
    + split; [done|]. split; [|by auto using consistent_rollback].
      intros r' Hr'. by left.
  - rewrite list_movies_run. cbn. split; [lia|]. split; [|done].
    intros r' Hr'. by left.
  - rewrite add_movie_run.
    destruct (insert_grows (add_values payload) st) as (Hseq & Hrows & Hcons).
    destruct (insert (add_values payload) st) as [[i|e] st']; cbn in *.
    + split; [done|]. split; [|done].
      intros r' [Hr'|Hr']%Hrows; [by left|by right; right].
    + split; [done|]. split; [|by auto using consistent_rollback].
      intros r' Hr'. by left.
  - rewrite mark_watched_run. cbn. split; [lia|]. split.
    + intros r' (r & -> & Hr)%elem_of_marked. unfold mark.
      case_decide; [right; left; eauto|by left].
    + intros [Hpk Hid Ht Hs]. split; unfold ids in *; cbn.
      * by rewrite marked_ids.
      * intros i. rewrite marked_ids. apply Hid.
      * intros r' (r & -> & Hr)%elem_of_marked. unfold mark.
        case_decide; cbn; auto.
      * intros r' (r & -> & Hr)%elem_of_marked. unfold mark.
        case_decide; cbn; eauto.
  - rewrite delete_movie_run. cbn. split; [lia|]. split.
    + intros r' [_ Hr']%list_elem_of_filter. by left.
    + intros [Hpk Hid Ht Hs]. split; unfold ids in *; cbn.
      * eapply sublist_NoDup; [exact Hpk|].
        apply fmap_sublist, sublist_filter.
      * intros i (r & -> & [_ Hr]%list_elem_of_filter)%list_elem_of_fmap.
        apply Hid. by apply list_elem_of_fmap_2.
      * intros r [_ Hr]%list_elem_of_filter. auto.
      * intros r [_ Hr]%list_elem_of_filter. auto.
Qed.

Lemma after_seq ev st : id_seq st <= id_seq (after ev st).
Proof. apply after_grows. Qed.

Lemma after_origin ev st r' : r' ∈ table (after ev st) -> row_origin st r'.
Proof. apply after_grows. Qed.

Lemma after_consistent ev st : consistent st -> consistent (after ev st).
Proof. apply after_grows. Qed.

Lemma reachable_consistent st : reachable st -> consistent st.
Proof.
  induction 1 as [|ev st _ IH].
  - apply after_consistent, consistent_fresh.
  - by apply after_consistent.
Qed.

Lemma later_seq st st' : later st st' -> id_seq st <= id_seq st'.
Proof.
  induction 1 as [|ev st' _ IH]; [lia|].
  pose proof (after_seq ev st'). lia.
Qed.

Lemma later_reachable st st' : reachable st -> later st st' -> reachable st'.
Proof. intros Hst. induction 1; [done|]. by constructor. Qed.

End Runs.

(** ** List movies *)

(** C10. Listing is read-only: [list_movies] answers 200 with the array
    of all rows and leaves the store, rows and sequence, exactly as it
    was. *)
Theorem list_movies_read_only (st : store) :
  (list_movies st).2 = st
  /\ (list_movies st).1 = Return (JArr (dict <$> table st), 200).
Proof. by rewrite list_movies_run. Qed.

(** ** Mark watched *)

(** C5. For an id that no row has, [mark_watched] answers 404 with
    [{"error": "not found"}] and the store is unchanged. *)
Theorem mark_watched_not_found (movie_id : Z) (st : store) :
  movie_id ∉ ids st ->
  mark_watched movie_id st
  = (Return (JObj [("error", JStr "not found")], 404), st).
Proof.
  intros Hnot. rewrite mark_watched_run, decide_False by done.
  rewrite marked_unmatched by done. by destruct st.
Qed.

Lemma mark_watched_not_found_witness :
  (99999 ∉ ids seeded)
  /\ mark_watched 99999 seeded
     = (Return (JObj [("error", JStr "not found")], 404), seeded).
Proof.
  assert (H : 99999 ∉ ids seeded).
  { vm_compute. intros H. repeat (apply elem_of_cons in H as [H|H]; [lia|]).
    by apply not_elem_of_nil in H. }
  split; [exact H|]. exact (mark_watched_not_found 99999 seeded H).
Defined.



(** C8. [mark_watched] changes nothing but the status of the rows of
    the given id.  Whatever order the rows come in afterwards, the table
    holds exactly the former rows, each once, where a row of the given
    id has status true and the id, title, genre and image_url it had,
    and a row of another id is the row it was; the sequence is as it
    was.  This holds for every id, existing or not. *)
Theorem mark_watched_frame (movie_id : Z) (st : store) :
  id_seq (mark_watched movie_id st).2 = id_seq st
  /\ table (mark_watched movie_id st).2
     ≡ₚ (fun r =>
          if decide (movies.id r = movie_id)
          then {| movies.id := movies.id r;
                  movies.title := movies.title r;
                  movies.genre := movies.genre r;
                  movies.status := Some true;
                  movies.image_url := movies.image_url r |}
          else r) <$> table st.
Proof.
  rewrite mark_watched_run. cbn. split; [done|]. apply marked_perm.
Qed.

(** ** Delete movie *)

(** Under a unique primary key, the rows a delete keeps are the table
    with the one matching row cut out. *)
Lemma delete_cuts_one (movie_id : Z) (rows : list movies.row) :
  NoDup (movies.id <$> rows) ->
  movie_id ∈ movies.id <$> rows ->
  exists above r below,
    rows = above ++ r :: below
    /\ movies.id r = movie_id
    /\ filter (fun r' => movies.id r' <> movie_id) rows = above ++ below.
Proof.
  intros Hpk (r & -> & Hr)%list_elem_of_fmap.
  apply list_elem_of_split in Hr as (above & below & ->).
  exists above, r, below. split; [done|]. split; [done|].
  rewrite fmap_app, fmap_cons in Hpk.
  apply NoDup_app in Hpk as (_ & Habove & Hbelow).
  apply NoDup_cons in Hbelow as [Hbelow _].
  rewrite filter_app, filter_cons_False by (intros Hne; by apply Hne).
  rewrite !filter_unmatched; [done|done|].
  intros Hin. apply (Habove _ Hin). left.
Qed.

Lemma dict_id (r r' : movies.row) : dict r = dict r' -> movies.id r = movies.id r'.
Proof. unfold dict. by intros [= ->]. Qed.

(** C7. For an id that a row has, under the unique primary key:
    [delete_movie] answers 200 with [{"deleted": id}] and cuts exactly
    that row out of the table; the list that follows shows no row with
    that id; a second delete answers 404 with [{"error": "not found"}]
    and changes nothing. *)
Theorem delete_movie_then_not_found (movie_id : Z) (st : store) :
  NoDup (ids st) ->
  movie_id ∈ ids st ->
  exists above r below,
    table st = above ++ r :: below
    /\ movies.id r = movie_id
    /\ delete_movie movie_id st
       = (Return (JObj [("deleted", JNum movie_id)], 200),
          {| table := above ++ below; id_seq := id_seq st |})
    /\ (list_movies (delete_movie movie_id st).2).1
       = Return (JArr (dict <$> above ++ below), 200)
    /\ (forall r', movies.id r' = movie_id -> dict r' ∉ dict <$> above ++ below)
    /\ delete_movie movie_id (delete_movie movie_id st).2
       = (Return (JObj [("error", JStr "not found")], 404),
          (delete_movie movie_id st).2).
Proof.
  intros Hpk Hin.
  destruct (delete_cuts_one movie_id (table st) Hpk Hin)
    as (above & r & below & Htab & Hid & Hcut).
  exists above, r, below. split; [done|]. split; [done|].
  assert (Hgone : movie_id ∉ movies.id <$> above ++ below).
  { rewrite <- Hcut. apply filter_ids. }
  rewrite !delete_movie_run, list_movies_run. cbn. rewrite Hcut.
  rewrite decide_True by done. split; [done|]. split; [done|]. split.
  - intros r' Hr' (r0 & Heq & Hr0)%list_elem_of_fmap. apply Hgone.
    apply dict_id in Heq. rewrite <- Hr', Heq. by apply list_elem_of_fmap_2.
  - rewrite decide_False by done. by rewrite filter_unmatched.
Qed.

Lemma delete_movie_then_not_found_witness :
  NoDup (ids seeded) /\ (3 ∈ ids seeded)
  /\ exists above r below,
       table seeded = above ++ r :: below
       /\ movies.id r = 3
       /\ delete_movie 3 seeded
          = (Return (JObj [("deleted", JNum 3)], 200),
             {| table := above ++ below; id_seq := id_seq seeded |})
       /\ (list_movies (delete_movie 3 seeded).2).1
          = Return (JArr (dict <$> above ++ below), 200)
       /\ (forall r', movies.id r' = 3 -> dict r' ∉ dict <$> above ++ below)
       /\ delete_movie 3 (delete_movie 3 seeded).2
          = (Return (JObj [("error", JStr "not found")], 404),
             (delete_movie 3 seeded).2).
Proof.
  assert (Hpk : NoDup (ids seeded)).
  { exact (pk_unique seeded (reachable_consistent seeded reachable_start)). }
  assert (Hin : 3 ∈ ids seeded).
  { find_row. }
  split; [exact Hpk|]. split; [exact Hin|].
  exact (delete_movie_then_not_found 3 seeded Hpk Hin).
Defined.

(** ** The status of a row *)

Lemma pk_identifies (rows : list movies.row) (r r' : movies.row) :
  NoDup (movies.id <$> rows) ->
  r ∈ rows -> r' ∈ rows -> movies.id r = movies.id r' -> r = r'.
Proof.
  intros Hpk Hr Hr' Hid.
  apply list_elem_of_lookup in Hr as [k Hk].
  apply list_elem_of_lookup in Hr' as [k' Hk'].
  assert (k = k') as ->; [|congruence].
  eapply NoDup_lookup; [exact Hpk| |].
  - rewrite list_lookup_fmap, Hk. reflexivity.
  - rewrite list_lookup_fmap, Hk'. cbn. by rewrite Hid.
Qed.

(** A row that is watched stays watched as long as it exists, through
    any number of requests and restarts. *)
Lemma watched_stays_watched (st0 st : store) (r r' : movies.row) :
  reachable st0 -> later st0 st ->
  r ∈ table st0 -> r' ∈ table st ->
  movies.id r' = movies.id r ->
  movies.status r = Some true -> movies.status r' = Some true.
Proof.
  intros Hreach Hlater Hr. pose proof (reachable_consistent _ Hreach) as Hcons.
  revert r'. induction Hlater as [|ev st Hlater IH]; intros r' Hr' Hid Hst.
  - by rewrite (pk_identifies (table st0) r' r (pk_unique _ Hcons) Hr' Hr Hid).
  - apply after_origin in Hr' as [Hr'|[(r0 & Hr0 & ->)|(Hnew & _)]].
    + by apply IH.
    + done.
    + pose proof (later_seq _ _ Hlater) as Hseq.
      assert (movies.id r < id_seq st0); [|lia].
      apply (ids_issued _ Hcons). by apply list_elem_of_fmap_2.
Qed.

(** C9. In a reachable store, no request takes a row from watched back
    to unwatched: a row whose status is true, if it is still there after
    the request, has status true. *)
Theorem status_never_reset (rq : request) (st : store) (r r' : movies.row) :
  reachable st ->
  r ∈ table st ->
  r' ∈ table (handle rq st).2 ->
  movies.id r' = movies.id r ->
  movies.status r = Some true ->
  movies.status r' = Some true.
Proof.
  intros Hreach Hr Hr' Hid Hst.
  apply (watched_stays_watched st (after (Serve rq) st) r r'); try done.
  apply later_step, later_refl.
Qed.

Lemma status_never_reset_witness :
  let st := after (Serve (PUT_movie 2)) seeded in
  let r := movies.set_status true
             (new_row 2 (Some "Interstellar") (Some "Sci-Fi")
                (Some "https://images.unsplash.com/photo-1462331940025-496dfbfc7564")
                false) in
  reachable st
  /\ r ∈ table st
  /\ r ∈ table (handle (POST_movies (Some dunkirk)) st).2
  /\ movies.status r = Some true.
Proof.
  intros st r.
  assert (Hreach : reachable st) by (apply reachable_after, reachable_start).
  assert (Hr : r ∈ table st).
  { find_row. }
  assert (Hr' : r ∈ table (handle (POST_movies (Some dunkirk)) st).2).
  { find_row. }
  split; [exact Hreach|]. split; [exact Hr|]. split; [exact Hr'|].
  exact (status_never_reset (POST_movies (Some dunkirk)) st r r
           Hreach Hr Hr' eq_refl eq_refl).
Defined.

(** ** Add movie *)

Lemma varchar_run n (o : option string) st :
  exists o', varchar n o st
             = (if fits n o then Return o' else Raise DataError, st).
Proof.
  unfold varchar, fits. destruct o as [s|]; [|by exists None].
  case_decide.
  - exists (Some s). by rewrite bool_decide_true.
  - rewrite bool_decide_false by done. cbn.
    exists (Some (String.substring 0 n s)). by destruct (all_spaces _).
Qed.

(** An add that succeeds answers 201 with the id drawn from the
    sequence and appends one unwatched row under that id. *)
Lemma add_movie_Return payload st resp st' :
  add_movie payload st = (Return resp, st') ->
  exists t g u,
    resp = created (id_seq st)
    /\ (id_seq st ∉ ids st)
    /\ st' = {| table := table st ++ [new_row (id_seq st) (Some t) g u false];
                id_seq := id_seq st + 1 |}.
Proof.
  rewrite add_movie_run.
  destruct (insert (add_values payload) st) as [[i|e] st1] eqn:Hins; [|done].
  intros [= <- <-].
  apply insert_inv in Hins
    as [(t & g & u & [= ->] & _ & _ & _ & Hfresh & ->)|(e & [=] & _)].
  by exists t, g, u.
Qed.

(** C4. In any run, an add that succeeds returns an id that no row
    has, and that no row had in any earlier store of the run; the
    primary key stays unique. *)
Theorem add_movie_id_unused
    (st0 st st' : store) (payload : option body) (resp : response) :
  reachable st0 ->
  later st0 st ->
  add_movie payload st = (Return resp, st') ->
  exists i,
    resp = (JObj [("id", JNum i)], 201)
    /\ (i ∉ ids st0)
    /\ (i ∉ ids st)
    /\ (i ∈ ids st')
    /\ NoDup (ids st').
Proof.
  intros Hreach Hlater Hadd.
  pose proof (reachable_consistent _ Hreach) as Hcons0.
  pose proof (reachable_consistent _ (later_reachable _ _ Hreach Hlater))
    as Hcons.
  assert (Hcons' : consistent st').
  { pose proof (after_consistent (Serve (POST_movies payload)) st Hcons) as H.
    cbn in H. by rewrite Hadd in H. }
  apply add_movie_Return in Hadd as (t & g & u & -> & Hfresh & ->).
  exists (id_seq st). split; [done|]. split; [|split; [done|split]].
  - intros Hin. apply (ids_issued _ Hcons0) in Hin.
    pose proof (later_seq _ _ Hlater). lia.
  - unfold ids. cbn. rewrite fmap_app. apply elem_of_app. right. cbn. left.
  - apply (pk_unique _ Hcons').
Qed.

Lemma add_movie_id_unused_witness :
  let st := after (Serve (DELETE_movie 4)) seeded in
  reachable seeded
  /\ later seeded st
  /\ (exists st', add_movie (Some dunkirk) st = (Return (created 5), st'))
  /\ (5 ∉ ids seeded)
  /\ (5 ∉ ids st).
Proof.
  intros st.
  assert (Hlater : later seeded st) by apply later_step, later_refl.
  assert (Hadd : add_movie (Some dunkirk) st
                 = (Return (created 5), (add_movie (Some dunkirk) st).2))
    by (vm_compute; reflexivity).
  destruct (add_movie_id_unused seeded st _ (Some dunkirk) (created 5)
              reachable_start Hlater Hadd)
    as (i & Hresp & Hnot0 & Hnot & _).
  injection Hresp as <-.
  split; [exact reachable_start|]. split; [exact Hlater|].
  split; [eexists; exact Hadd|]. split; [exact Hnot0|exact Hnot].
Defined.

(** C3. An add that succeeds stores a row with status false whatever
    [status] member the payload carries: the response is the same with
    any other [status] member, and in the list that follows exactly one
    row has the returned id, and its status is false. *)
Theorem add_movie_unwatched
    (payload : option body) (st st' : store) (resp : response) :
  add_movie payload st = (Return resp, st') ->
  (forall j, add_movie (with_status j <$> payload) st = (Return resp, st'))
  /\ exists i r,
       resp = (JObj [("id", JNum i)], 201)
       /\ (list_movies st').1 = Return (JArr (dict <$> table st'), 200)
       /\ filter (fun r' => movies.id r' = i) (table st') = [r]
       /\ movies.status r = Some false
       /\ dict r = JObj [ ("id", JNum i);
                          ("title", json_text (movies.title r));
                          ("genre", json_text (movies.genre r));
                          ("status", JBool false);
                          ("image_url", json_text (movies.image_url r)) ].
Proof.
  intros Hadd. split.
  { intros j. rewrite <- Hadd. by destruct payload as [[]|]. }
  apply add_movie_Return in Hadd as (t & g & u & -> & Hfresh & ->).
  exists (id_seq st), (new_row (id_seq st) (Some t) g u false).
  split; [done|]. rewrite list_movies_run. cbn. split; [done|].
  split; [|done]. rewrite filter_app.
  replace (filter _ (table st)) with (@nil movies.row).
  - by rewrite filter_cons_True.
  - symmetry. apply length_zero_iff_nil. by apply rowcount_zero.
Qed.

Lemma add_movie_unwatched_witness :
  let st' := (add_movie (Some dunkirk) seeded).2 in
  add_movie (Some dunkirk) seeded = (Return (created 5), st')
  /\ add_movie (Some (with_status (Some (JStr "watched")) dunkirk)) seeded
     = (Return (created 5), st')
  /\ filter (fun r' => movies.id r' = 5) (table st')
     = [new_row 5 (Some "Dunkirk") (Some "War") None false].
Proof.
  intros st'.
  assert (Hadd : add_movie (Some dunkirk) seeded = (Return (created 5), st'))
    by (vm_compute; reflexivity).
  destruct (add_movie_unwatched (Some dunkirk) seeded st' (created 5) Hadd)
    as (Hany & _).
  split; [exact Hadd|]. split; [exact (Hany (Some (JStr "watched")))|].
  vm_compute. reflexivity.
Defined.

(** C1, as the code has it. A payload without a title (absent or null)
    is refused: the handler raises, which the client sees as a 500, no
    row is stored and the rows of the table are unchanged. *)
Theorem add_movie_null_title_refused (payload : option body) (st : store) :
  b_title (default empty_body payload) = None ->
  (exists e, (add_movie payload st).1 = Raise e)
  /\ status_code (add_movie payload st).1 = 500
  /\ table (add_movie payload st).2 = table st.
Proof.
  intros Hnull. rewrite add_movie_run.
  destruct (insert (add_values payload) st) as [res st'] eqn:Hins.
  apply insert_inv in Hins as [(t & g & u & _ & Ht & _)|(e & -> & Htab & _)].
  - cbn in Ht. rewrite Hnull in Ht. discriminate Ht.
  - cbn. eauto.
Qed.

Lemma add_movie_null_title_refused_witness :
  b_title (default empty_body None) = None
  /\ (exists e, (add_movie None seeded).1 = Raise e)
  /\ status_code (add_movie None seeded).1 = 500
  /\ table (add_movie None seeded).2 = table seeded.
Proof.
  split; [reflexivity|].
  exact (add_movie_null_title_refused None seeded eq_refl).
Defined.

(** C1, as stated, fails: the add of the payload [{}] to the seeded
    store answers no 201 and stores no row with a null title. *)
Lemma add_movie_null_title_counterexample :
  ~ exists i st',
      add_movie (Some empty_body) seeded = (Return (JObj [("id", JNum i)], 201), st')
      /\ exists r, r ∈ table st' /\ movies.id r = i /\ movies.title r = None.
Proof. intros (i & st' & Hadd & _). vm_compute in Hadd. discriminate Hadd. Qed.

(** ** Start-up *)

(** Started on a table that holds a row, the process stores nothing. *)
Lemma startup_populated (st : store) :
  table st <> [] -> startup st = (Return tt, st).
Proof. intros Hne. rewrite startup_run. by destruct (table st). Qed.

(** C2. Started on an empty table, the process stores exactly the four
    seed movies, in order, each with status false, under the next four
    ids of the sequence; started again on the result, it stores nothing
    more. *)
Theorem startup_seeds_once (st : store) :
  table st = [] ->
  (startup st).1 = Return tt
  /\ movies.title <$> table (startup st).2
     = [Some "Inception"; Some "Interstellar"; Some "The Dark Knight";
        Some "Tenet"]
  /\ Forall (fun r => movies.status r = Some false) (table (startup st).2)
  /\ (fun r => Values (movies.title r) (movies.genre r) false
                 (movies.image_url r)) <$> table (startup st).2
     = nolan_movies
  /\ ids (startup st).2
     = [id_seq st; id_seq st + 1; id_seq st + 2; id_seq st + 3]
  /\ startup (startup st).2 = (Return tt, (startup st).2).
Proof.
  destruct st as [rows n]. cbn. intros ->.
  assert (Hrun : startup {| table := []; id_seq := n |}
    = (Return tt,
       {| table :=
            zip_with
              (fun i v => new_row i (v_title v) (v_genre v) (v_image_url v)
                            false)
              [n; n + 1; n + 2; n + 3] nolan_movies;
          id_seq := n + 4 |})).
  { rewrite startup_run. cbn [table]. unfold nolan_movies.
    assert (Hne : forall (i : Z) (l : list Z),
               Forall (fun j => j < i) l -> i ∉ l).
    { intros i l Hl Hin. rewrite Forall_forall in Hl.
      specialize (Hl i Hin). cbn in Hl. lia. }
    repeat (rewrite insert_many_cons; erewrite insert_Return;
      [ | vm_compute; reflexivity | vm_compute; reflexivity
        | vm_compute; reflexivity
        | apply varchar_fits; vm_compute; lia
        | apply varchar_fits; vm_compute; lia
        | apply varchar_fits; vm_compute; lia
        | cbn; apply Hne; repeat constructor; lia ];
      cbn [table id_seq app v_status]).
    cbn. replace (n + 1 + 1 + 1 + 1) with (n + 4) by lia.
    replace (n + 1 + 1 + 1) with (n + 3) by lia.
    by replace (n + 1 + 1) with (n + 2) by lia. }
  rewrite Hrun. cbn. split; [done|]. split; [done|].
  split; [by repeat constructor|]. split; [done|].
  split; [unfold ids; cbn; do 3 f_equal; lia|].
  by rewrite startup_run.
Qed.

Lemma startup_seeds_once_witness :
  table fresh_store = []
  /\ (startup fresh_store).1 = Return tt
  /\ movies.title <$> table (startup fresh_store).2
     = [Some "Inception"; Some "Interstellar"; Some "The Dark Knight";
        Some "Tenet"]
  /\ Forall (fun r => movies.status r = Some false)
       (table (startup fresh_store).2)
  /\ (fun r => Values (movies.title r) (movies.genre r) false
                 (movies.image_url r)) <$> table (startup fresh_store).2
     = nolan_movies
  /\ ids (startup fresh_store).2 = [1; 1 + 1; 1 + 2; 1 + 3]
  /\ startup (startup fresh_store).2 = (Return tt, (startup fresh_store).2).
Proof.
  split; [reflexivity|]. exact (startup_seeds_once fresh_store eq_refl).
Defined.

(** ** The scenario of the specification *)

(** Add Dunkirk to the seeded store, list, mark it watched, delete it,
    delete it again. *)
Example dunkirk_scenario :
  (serve_all [ POST_movies (Some (with_status None dunkirk));
               GET_movies; PUT_movie 5; DELETE_movie 5; DELETE_movie 5 ]
     seeded).1
  = [ Return (JObj [("id", JNum 5)], 201);
      Return (JArr (dict <$> table seeded
                            ++ [new_row 5 (Some "Dunkirk") (Some "War") None
                                  false]), 200);
      Return (JObj [("status", JStr "updated")], 200);
      Return (JObj [("deleted", JNum 5)], 200);
      Return (JObj [("error", JStr "not found")], 404) ].
Proof. vm_compute. reflexivity. Qed.

(** * Further properties of the handlers and of runs *)

(** ** Delete and mark on a missing row *)

(** X1. For an id that no row has, [delete_movie] answers 404 with
    [{"error": "not found"}] and the store is unchanged. *)
Theorem delete_movie_not_found (movie_id : Z) (st : store) :
  movie_id ∉ ids st ->
  delete_movie movie_id st
  = (Return (JObj [("error", JStr "not found")], 404), st).
Proof.
  intros Hnot. rewrite delete_movie_run, decide_False by done.
  destruct st as [rows n]. cbn. by rewrite filter_unmatched.
Qed.

Lemma delete_movie_not_found_witness :
  (99999 ∉ ids seeded)
  /\ delete_movie 99999 seeded
     = (Return (JObj [("error", JStr "not found")], 404), seeded).
Proof.
  assert (H : 99999 ∉ ids seeded).
  { vm_compute. intros H. repeat (apply elem_of_cons in H as [H|H]; [lia|]).
    by apply not_elem_of_nil in H. }
  split; [exact H|]. exact (delete_movie_not_found 99999 seeded H).
Defined.

(** X2. Whatever the store, once [delete_movie] has run for an id,
    [mark_watched] for that id answers 404 and changes nothing. *)
Theorem mark_watched_after_delete (movie_id : Z) (st : store) :
  mark_watched movie_id (delete_movie movie_id st).2
  = (Return (JObj [("error", JStr "not found")], 404),
     (delete_movie movie_id st).2).
Proof.
  rewrite delete_movie_run. cbn [snd]. rewrite mark_watched_run.
  unfold ids. cbn [table id_seq].
  rewrite decide_False by apply filter_ids.
  by rewrite marked_unmatched by apply filter_ids.
Qed.

(** ** What every reachable store satisfies *)

(** X3. In every reachable store the primary key is unique, every id was
    drawn from the sequence, no title is null, and every status is true
    or false, never null. *)
Theorem reachable_store_constraints (st : store) :
  reachable st ->
  NoDup (ids st)
  /\ forall r, r ∈ table st ->
       movies.id r < id_seq st
       /\ is_Some (movies.title r)
       /\ (movies.status r = Some false \/ movies.status r = Some true).
Proof.
  intros [Hpk Hid Ht Hs]%reachable_consistent. split; [done|].
  intros r Hr. split; [|split; [by auto|]].
  - apply Hid. by apply list_elem_of_fmap_2.
  - destruct (Hs r Hr) as [[|] ->]; auto.
Qed.

Lemma reachable_store_constraints_witness :
  let st := after (Serve (POST_movies (Some dunkirk))) seeded in
  reachable st
  /\ NoDup (ids st)
  /\ forall r, r ∈ table st ->
       movies.id r < id_seq st
       /\ is_Some (movies.title r)
       /\ (movies.status r = Some false \/ movies.status r = Some true).
Proof.
  intros st.
  assert (H : reachable st) by (apply reachable_after, reachable_start).
  split; [exact H|]. exact (reachable_store_constraints st H).
Defined.

(** ** The life of one row *)

(** X4. Along a run, with restarts or not, the row of an id keeps its
    title, genre and image_url, and its status only ever moves to true:
    it is the status it had, or true. *)
Theorem row_history (st0 st : store) (r r' : movies.row) :
  reachable st0 ->
  later st0 st ->
  r ∈ table st0 ->
  r' ∈ table st ->
  movies.id r' = movies.id r ->
  movies.title r' = movies.title r
  /\ movies.genre r' = movies.genre r
  /\ movies.image_url r' = movies.image_url r
  /\ (movies.status r' = movies.status r \/ movies.status r' = Some true).
Proof.
  intros Hreach Hlater Hr. pose proof (reachable_consistent _ Hreach) as Hcons.
  revert r'. induction Hlater as [|ev st Hlater IH]; intros r' Hr' Hid.
  - rewrite (pk_identifies (table st0) r' r (pk_unique _ Hcons) Hr' Hr Hid).
    auto.
  - apply after_origin in Hr' as [Hr'|[(r0 & Hr0 & ->)|(Hnew & _)]].
    + by apply IH.
    + destruct (IH r0 Hr0 Hid) as (Ht & Hg & Hu & _). cbn. auto.
    + pose proof (later_seq _ _ Hlater) as Hseq.
      assert (movies.id r < id_seq st0); [|lia].
      apply (ids_issued _ Hcons). by apply list_elem_of_fmap_2.
Qed.

Lemma row_history_witness :
  let st := after (Serve (DELETE_movie 1)) (after (Serve (PUT_movie 2)) seeded) in
  let r := new_row 2 (Some "Interstellar") (Some "Sci-Fi")
             (Some "https://images.unsplash.com/photo-1462331940025-496dfbfc7564")
             false in
  let r' := movies.set_status true r in
  reachable seeded /\ later seeded st /\ r ∈ table seeded /\ r' ∈ table st
  /\ movies.title r' = movies.title r
  /\ movies.genre r' = movies.genre r
  /\ movies.image_url r' = movies.image_url r
  /\ (movies.status r' = movies.status r \/ movies.status r' = Some true).
Proof.
  intros st r r'.
  assert (Hlater : later seeded st) by (do 2 apply later_step; apply later_refl).
  assert (Hr : r ∈ table seeded).
  { find_row. }
  assert (Hr' : r' ∈ table st).
  { find_row. }
  split; [exact reachable_start|]. split; [exact Hlater|].
  split; [exact Hr|]. split; [exact Hr'|].
  exact (row_history seeded st r r' reachable_start Hlater Hr Hr' eq_refl).
Defined.

(** X5. An id that was used and is gone never comes back: if a row had the
    id in a reachable store and no row has it in a later store, no row
    has it in any store after that, whatever is added or restarted. *)
Theorem deleted_id_never_returns (st0 st st' : store) (i : Z) :
  reachable st0 ->
  i ∈ ids st0 ->
  later st0 st ->
  i ∉ ids st ->
  later st st' ->
  i ∉ ids st'.
Proof.
  intros Hreach Hi Hlater0 Hgone Hlater.
  assert (Hissued : i < id_seq st).
  { pose proof (ids_issued _ (reachable_consistent _ Hreach) i Hi).
    pose proof (later_seq _ _ Hlater0). lia. }
  clear Hreach Hi Hlater0.
  induction Hlater as [|ev st' Hlater IH]; [done|].
  intros (r' & -> & Hr')%list_elem_of_fmap.
  apply after_origin in Hr' as [Hr'|[(r0 & Hr0 & ->)|(Hnew & _)]].
  - apply IH. by apply list_elem_of_fmap_2.
  - apply IH. cbn. by apply (list_elem_of_fmap_2 movies.id).
  - pose proof (later_seq _ _ Hlater). lia.
Qed.

Lemma deleted_id_never_returns_witness :
  let st := after (Serve (DELETE_movie 4)) seeded in
  let st' := after Start (after (Serve (POST_movies (Some dunkirk))) st) in
  reachable seeded /\ (4 ∈ ids seeded) /\ later seeded st /\ (4 ∉ ids st)
  /\ later st st' /\ (4 ∉ ids st').
Proof.
  intros st st'.
  assert (Hin : 4 ∈ ids seeded).
  { find_row. }
  assert (Hlater0 : later seeded st) by apply later_step, later_refl.
  assert (Hgone : 4 ∉ ids st).
  { vm_compute. intros H. repeat (apply elem_of_cons in H as [H|H]; [lia|]).
    by apply not_elem_of_nil in H. }
  assert (Hlater : later st st') by (do 2 apply later_step; apply later_refl).
  split; [exact reachable_start|]. split; [exact Hin|].
  split; [exact Hlater0|]. split; [exact Hgone|]. split; [exact Hlater|].
  exact (deleted_id_never_returns seeded st st' 4
           reachable_start Hin Hlater0 Hgone Hlater).
Defined.

(** ** Add movie: what is stored, and when *)


Lemma rollback_same st : rollback st st = st.
Proof. by destruct st. Qed.





(** X8. A text that does not fit its column makes the add fail before
    anything is drawn from the sequence: when no text of the payload
    holds the NUL character and the title, the genre or the image_url is
    longer than its column allows (and the excess is not only spaces),
    the handler raises the data error and the store, rows and sequence,
    is as before. *)
Theorem add_movie_too_long_refused (payload : option body) (st : store) :
  let data := default empty_body payload in
  nul_free (b_title data) = true ->
  nul_free (b_genre data) = true ->
  nul_free (b_image_url data) = true ->
  fits movies.title_len (b_title data)
  && fits movies.genre_len (b_genre data)
  && fits movies.image_url_len (b_image_url data) = false ->
  add_movie payload st = (Raise DataError, st).
Proof.
  intros data Nt Ng Nu Hfit.
  unfold add_movie, begin, insert, mbind, Conn_bind, bind. fold data.
  cbn [v_title v_genre v_image_url]. rewrite !adapt_run, Nt, Ng, Nu.
  destruct (varchar_run movies.title_len (b_title data) st) as [t ->].
  destruct (fits movies.title_len _); [|by rewrite rollback_same].
  destruct (varchar_run movies.genre_len (b_genre data) st) as [g ->].
  destruct (fits movies.genre_len _); [|by rewrite rollback_same].
  destruct (varchar_run movies.image_url_len (b_image_url data) st) as [u ->].
  destruct (fits movies.image_url_len _); [done|by rewrite rollback_same].
Qed.

Lemma add_movie_too_long_refused_witness :
  let payload := Some {| b_title := Some (xs 201); b_genre := None;
                         b_image_url := None; b_status := None |} in
  nul_free (Some (xs 201)) = true
  /\ fits movies.title_len (Some (xs 201)) = false
  /\ add_movie payload seeded = (Raise DataError, seeded).
Proof.
  intros payload. split; [vm_compute; reflexivity|].
  split; [vm_compute; reflexivity|].
  refine (add_movie_too_long_refused payload seeded _ _ _ _);
    vm_compute; reflexivity.
Defined.



(** X10. Ids are handed out in increasing order: of two adds that succeed in
    a run, the later one returns the greater id, whatever happens in
    between. *)
Theorem add_movie_ids_increase
    (p q : option body) (st st1 st2 st3 : store) (i j : Z) :
  add_movie p st = (Return (JObj [("id", JNum i)], 201), st1) ->
  later st1 st2 ->
  add_movie q st2 = (Return (JObj [("id", JNum j)], 201), st3) ->
  i < j.
Proof.
  intros Hp Hlater Hq.
  apply add_movie_Return in Hp as (t & g & u & [= ->] & _ & ->).
  apply add_movie_Return in Hq as (t' & g' & u' & [= ->] & _ & ->).
  pose proof (later_seq _ _ Hlater) as Hseq. cbn in Hseq. lia.
Qed.

Lemma add_movie_ids_increase_witness :
  let st1 := (add_movie (Some dunkirk) seeded).2 in
  let st2 := after (Serve (DELETE_movie 5)) st1 in
  add_movie (Some dunkirk) seeded = (Return (JObj [("id", JNum 5)], 201), st1)
  /\ later st1 st2
  /\ add_movie (Some dunkirk) st2
     = (Return (JObj [("id", JNum 6)], 201), (add_movie (Some dunkirk) st2).2)
  /\ 5 < 6.
Proof.
  intros st1 st2.
  assert (Hp : add_movie (Some dunkirk) seeded
               = (Return (JObj [("id", JNum 5)], 201), st1))
    by (vm_compute; reflexivity).
  assert (Hlater : later st1 st2) by apply later_step, later_refl.
  assert (Hq : add_movie (Some dunkirk) st2
               = (Return (JObj [("id", JNum 6)], 201),
                  (add_movie (Some dunkirk) st2).2))
    by (vm_compute; reflexivity).
  split; [exact Hp|]. split; [exact Hlater|]. split; [exact Hq|].
  exact (add_movie_ids_increase _ _ _ _ _ _ 5 6 Hp Hlater Hq).
Defined.

(** ** Start-up on any store *)

Lemma seed_run (n : Z) :
  insert_many nolan_movies {| table := []; id_seq := n |}
  = (Return tt,
     {| table :=
          zip_with
            (fun i v => new_row i (v_title v) (v_genre v) (v_image_url v) false)
            [n; n + 1; n + 1 + 1; n + 1 + 1 + 1] nolan_movies;
        id_seq := n + 1 + 1 + 1 + 1 |}).
Proof.
  unfold nolan_movies.
  assert (Hne : forall (i : Z) (l : list Z),
             Forall (fun j => j < i) l -> i ∉ l).
  { intros i l Hl Hin. rewrite Forall_forall in Hl.
    specialize (Hl i Hin). cbn in Hl. lia. }
  repeat (rewrite insert_many_cons; erewrite insert_Return;
    [ | vm_compute; reflexivity | vm_compute; reflexivity
      | vm_compute; reflexivity
      | apply varchar_fits; vm_compute; lia
      | apply varchar_fits; vm_compute; lia
      | apply varchar_fits; vm_compute; lia
      | cbn; apply Hne; repeat constructor; lia ];
    cbn [table id_seq app v_status]).
  reflexivity.
Qed.

(** X11. The start-up block never fails and is idempotent, whatever store it
    finds: it returns, running it again on its result changes nothing,
    and on a table that holds any row at all, seed or not, it changes
    nothing in the first place. *)
Theorem startup_idempotent (st : store) :
  (startup st).1 = Return tt
  /\ startup (startup st).2 = (Return tt, (startup st).2)
  /\ (table st <> [] -> (startup st).2 = st).
Proof.
  destruct st as [[|r rows] n].
  - assert (Hrun : startup {| table := []; id_seq := n |}
                   = (Return tt,
                      (insert_many nolan_movies
                         {| table := []; id_seq := n |}).2))
      by (rewrite startup_run; cbn [table]; by rewrite seed_run).
    rewrite !Hrun. cbn [fst snd]. split; [done|]. split; [|done].
    rewrite seed_run. cbn [snd]. by rewrite startup_run.
  - assert (Hrun : startup {| table := r :: rows; id_seq := n |}
                   = (Return tt, {| table := r :: rows; id_seq := n |}))
      by by rewrite startup_run.
    rewrite !Hrun. cbn. by rewrite Hrun.
Qed.

(** ** How mark and delete compose *)

Lemma mark_comm (i j : Z) (r : movies.row) :
  mark i (mark j r) = mark j (mark i r).
Proof. unfold mark. destruct r. cbn. repeat case_decide; done. Qed.

Lemma filter_marked (i : Z) (rows : list movies.row) :
  filter (fun r => movies.id r <> i) (marked i rows)
  = filter (fun r => movies.id r <> i) rows.
Proof.
  unfold marked. rewrite filter_app.
  destruct (hits_watched i true rows) as [_ ->].
  rewrite filter_unmatched by apply filter_ids. apply app_nil_r.
Qed.

Lemma marked_elem_of_ids (i j : Z) (st : store) :
  j ∈ movies.id <$> marked i (table st) <-> j ∈ ids st.
Proof. unfold ids. by rewrite marked_ids. Qed.

(** X12. Marking two movies watched in either order gives the same
    rows, up to the order in which a list returns them, and the same
    sequence; and the answer for one does not depend on whether the
    other was marked before. *)
Theorem mark_watched_commute (i j : Z) (st : store) :
  table (mark_watched j (mark_watched i st).2).2
  ≡ₚ table (mark_watched i (mark_watched j st).2).2
  /\ id_seq (mark_watched j (mark_watched i st).2).2
     = id_seq (mark_watched i (mark_watched j st).2).2
  /\ (mark_watched j (mark_watched i st).2).1 = (mark_watched j st).1.
Proof.
  rewrite !mark_watched_run. cbn [fst snd table id_seq]. split; [|split].
  - rewrite !marked_perm, <- !list_fmap_compose.
    erewrite list_fmap_ext; [done|]. intros k r _. apply mark_comm.
  - done.
  - f_equal. unfold ids at 1. cbn [table].
    apply decide_ext, marked_elem_of_ids.
Qed.

(** X13. Deleting a movie forgets that it was watched: the answer and the
    store are the same whether [mark_watched] ran for that id before the
    delete or not. *)
Theorem delete_movie_after_mark (movie_id : Z) (st : store) :
  delete_movie movie_id (mark_watched movie_id st).2
  = delete_movie movie_id st.
Proof.
  rewrite mark_watched_run, !delete_movie_run. cbn [snd table id_seq].
  rewrite filter_marked. do 2 f_equal. unfold ids at 1. cbn [table].
  apply decide_ext, marked_elem_of_ids.
Qed.

(** ** What a list tells *)

Lemma dict_inj (r r' : movies.row) : dict r = dict r' -> r = r'.
Proof.
  destruct r as [i t g s u], r' as [i' t' g' s' u']. unfold dict. cbn.
  intros [= -> Ht Hg Hs Hu]. f_equal.
  - by destruct t, t'; simplify_eq.
  - by destruct g, g'; simplify_eq.
  - by destruct s, s'; simplify_eq.
  - by destruct u, u'; simplify_eq.
Qed.

(** X14. The list loses nothing: it answers 200 with one object per row, in
    storage order, and two stores that list the same hold the same rows. *)
Theorem list_movies_faithful (st st' : store) :
  (exists items,
      (list_movies st).1 = Return (JArr items, 200)
      /\ length items = length (table st))
  /\ ((list_movies st).1 = (list_movies st').1 -> table st = table st').
Proof.
  rewrite !list_movies_run. cbn. split.
  - eexists. split; [done|]. by rewrite length_fmap.
  - intros [= Heq].
    assert (Hinj : Inj (=) (=) dict) by (intros r r'; apply dict_inj).
    by apply (inj (fmap dict)).
Qed.

(** ** The lengths of the stored texts *)

Lemma length_substring_le (n : nat) (s : string) :
  (String.length (String.substring 0 n s) <= n)%nat.
Proof.
  revert s. induction n as [|n IH]; intros [|c s]; cbn; try lia.
  specialize (IH s). lia.
Qed.

Lemma varchar_Return_within n (o o' : option string) st st' :
  varchar n o st = (Return o', st') -> text_within n o'.
Proof.
  unfold varchar. destruct o as [s|].
  - case_decide; [|destruct (all_spaces _)]; intros [= <- <-]; cbn; [done|].
    apply length_substring_le.
  - by intros [= <- <-].
Qed.

Lemma insert_within v st :
  (forall r, r ∈ table st -> within_limits r) ->
  forall r, r ∈ table (insert v st).2 -> within_limits r.
Proof.
  intros Hall. destruct (insert v st) as [res st'] eqn:Hins. cbn.
  apply insert_inv in Hins
    as [(t & g & u & _ & Ht & Hg & Hu & _ & ->)|(e & _ & -> & _)]; [|done].
  cbn. intros r [Hr|Hr]%elem_of_app; [by auto|].
  apply list_elem_of_singleton in Hr as ->.
  apply varchar_Return_within in Ht, Hg, Hu. by repeat split.
Qed.

Lemma insert_many_within vs st :
  (forall r, r ∈ table st -> within_limits r) ->
  forall r, r ∈ table (insert_many vs st).2 -> within_limits r.
Proof.
  revert st. induction vs as [|v vs IH]; intros st Hall; [done|].
  rewrite insert_many_cons. pose proof (insert_within v st Hall) as Hv.
  destruct (insert v st) as [[i|e] st1]; cbn in *; [by apply IH|done].
Qed.

Lemma after_within ev st :
  (forall r, r ∈ table st -> within_limits r) ->
  forall r, r ∈ table (after ev st) -> within_limits r.
Proof.
  intros Hall.
  destruct ev as [|[|payload|movie_id|movie_id]]; cbn [after handle].
  - rewrite startup_run. destruct (table st) as [|r0 rows] eqn:Htab.
    2:{ cbn. by rewrite Htab. }
    pose proof (insert_many_within nolan_movies st) as Hseed.
    rewrite Htab in Hseed.
    destruct (insert_many nolan_movies st) as [[u|e] st']; cbn in *.
    + by apply Hseed.
    + by rewrite Htab.
  - by rewrite list_movies_run.
  - rewrite add_movie_run.
    pose proof (insert_within (add_values payload) st Hall) as Hins.
    by destruct (insert (add_values payload) st) as [[i|e] st'].
  - rewrite mark_watched_run. cbn [snd table].
    intros r' (r & -> & Hr)%elem_of_marked. unfold mark.
    case_decide; [|by auto]. by apply (Hall r).
  - rewrite delete_movie_run. cbn.
    intros r [_ Hr]%list_elem_of_filter. by auto.
Qed.

(** X15. The lengths the columns declare are kept: in every reachable store
    a title has at most 200 characters, a genre at most 100 and an
    image_url at most 500. *)
Theorem stored_texts_within_limits (st : store) (r : movies.row) :
  reachable st ->
  r ∈ table st ->
  text_within 200 (movies.title r)
  /\ text_within 100 (movies.genre r)
  /\ text_within 500 (movies.image_url r).
Proof.
  intros Hreach. revert r. induction Hreach as [|ev st _ IH].
  - apply after_within. intros r Hr. by apply not_elem_of_nil in Hr.
  - by apply after_within.
Qed.

Lemma stored_texts_within_limits_witness :
  let padded := Some {| b_title := Some (xs 200 +:+ "   ");
                        b_genre := None; b_image_url := None;
                        b_status := None |} in
  let st := after (Serve (POST_movies padded)) seeded in
  let r := new_row 5 (Some (xs 200)) None None false in
  reachable st /\ r ∈ table st
  /\ text_within 200 (movies.title r)
  /\ text_within 100 (movies.genre r)
  /\ text_within 500 (movies.image_url r).
Proof.
  intros padded st r.
  assert (Hreach : reachable st) by (apply reachable_after, reachable_start).
  assert (Hr : r ∈ table st).
  { find_row. }
  split; [exact Hreach|]. split; [exact Hr|].
  exact (stored_texts_within_limits st r Hreach Hr).
Defined.

(** ** Add, then delete *)

(** X16. Deleting the id an add has just returned undoes the add on the
    table: the delete answers 200 and the rows are those from before the
    add, in place.  The sequence is not undone: it stays one further. *)
Theorem add_then_delete (payload : option body) (st st1 : store) (i : Z) :
  add_movie payload st = (Return (JObj [("id", JNum i)], 201), st1) ->
  delete_movie i st1
  = (Return (JObj [("deleted", JNum i)], 200),
     {| table := table st; id_seq := id_seq st + 1 |}).
Proof.
  intros Hadd.
  apply add_movie_Return in Hadd as (t & g & u & [= ->] & Hfresh & ->).
  rewrite delete_movie_run. unfold ids. cbn.
  rewrite decide_True.
  2:{ rewrite fmap_app. apply elem_of_app. right. cbn. left. }
  rewrite filter_app, filter_unmatched by done.
  rewrite filter_cons_False by (cbn; intros Hne; by apply Hne).
  by rewrite filter_nil, app_nil_r.
Qed.

Lemma add_then_delete_witness :
  let st1 := (add_movie (Some dunkirk) seeded).2 in
  add_movie (Some dunkirk) seeded = (Return (JObj [("id", JNum 5)], 201), st1)
  /\ delete_movie 5 st1
     = (Return (JObj [("deleted", JNum 5)], 200),
        {| table := table seeded; id_seq := id_seq seeded + 1 |}).
Proof.
  intros st1.
  assert (Hadd : add_movie (Some dunkirk) seeded
                 = (Return (JObj [("id", JNum 5)], 201), st1))
    by (vm_compute; reflexivity).
  split; [exact Hadd|].
  exact (add_then_delete (Some dunkirk) seeded st1 5 Hadd).
Defined.

(** ** Text the driver refuses *)

(** X17. A payload whose title, genre or image_url holds the NUL
    character is refused before anything reaches the database: the
    handler raises the value error (a 500 for the client) and the store,
    rows and sequence, is as before. *)
Theorem add_movie_nul_refused (payload : option body) (st : store) :
  let data := default empty_body payload in
  nul_free (b_title data) && nul_free (b_genre data)
  && nul_free (b_image_url data) = false ->
  add_movie payload st = (Raise ValueError, st)
  /\ status_code (add_movie payload st).1 = 500.
Proof.
  intros data Hnul.
  assert (Hrun : add_movie payload st = (Raise ValueError, st)).
  { unfold add_movie, begin, insert, mbind, Conn_bind, bind. fold data.
    cbn [v_title v_genre v_image_url]. rewrite !adapt_run.
    destruct (nul_free (b_title data)); [|by rewrite rollback_same].
    destruct (nul_free (b_genre data)); [|by rewrite rollback_same].
    destruct (nul_free (b_image_url data)); [done|by rewrite rollback_same]. }
  by rewrite Hrun.
Qed.

Lemma add_movie_nul_refused_witness :
  let payload := Some {| b_title := Some (String Ascii.zero EmptyString);
                         b_genre := None; b_image_url := None;
                         b_status := None |} in
  nul_free (Some (String Ascii.zero EmptyString)) = false
  /\ add_movie payload seeded = (Raise ValueError, seeded)
  /\ status_code (add_movie payload seeded).1 = 500.
Proof.
  intros payload. split; [reflexivity|].
  refine (add_movie_nul_refused payload seeded _). reflexivity.
Defined.
